(** * SentimentAnalysisPractice.py: the episode sentiment pipeline

    The script is a straight-line batch job: load the dialogue table, sum
    the dialogue per episode, clean the text, score it and merge the scores
    with the episode metadata.  This file embeds the script stage by stage
    and states the properties of the written specification about it.

    What belongs to third-party packages (the spaCy tokenizer, the NLTK
    stop-word list, the VADER analyzer) is a variable of the pipeline; what
    pandas and the Python runtime do on the way (grouping, index alignment,
    name lookup, [to_csv]) is written out. *)

From Stdlib Require Import ZArith QArith Qcanon String Ascii List.
From Stdlib Require Import DecimalString DecimalPos DecimalZ.
From stdpp Require Import base numbers list strings gmap sorting.

Open Scope string_scope.
Open Scope Z_scope.

(** ** Characters and strings

    A text is a sequence of code points below 256, the Latin-1 range of a
    Python [str]; on that range the three character functions below are the
    ones [str.lower], [\w] and [\s] use. *)

Definition ord (c : ascii) : Z := Z.of_N (N_of_ascii c).

(** [\s] on a [str] pattern, and the separators of [str.split()]. *)
Definition isspace (c : ascii) : bool :=
  let n := ord c in
  ((9 <=? n) && (n <=? 13)) || ((28 <=? n) && (n <=? 32))
  || (n =? 133) || (n =? 160).

Definition isalnum (c : ascii) : bool :=
  let n := ord c in
  ((48 <=? n) && (n <=? 57)) || ((65 <=? n) && (n <=? 90))
  || ((97 <=? n) && (n <=? 122))
  || (n =? 170) || (n =? 178) || (n =? 179) || (n =? 181) || (n =? 185)
  || (n =? 186) || ((188 <=? n) && (n <=? 190))
  || ((192 <=? n) && (n <=? 214)) || ((216 <=? n) && (n <=? 246))
  || (248 <=? n).

(** [\w]: alphanumeric or the underscore. *)
Definition isword (c : ascii) : bool := isalnum c || (ord c =? 95).

Definition isupper (c : ascii) : bool :=
  let n := ord c in
  ((65 <=? n) && (n <=? 90)) || ((192 <=? n) && (n <=? 214))
  || ((216 <=? n) && (n <=? 222)).

Definition lower_char (c : ascii) : ascii :=
  if isupper c then ascii_of_N (Z.to_N (ord c + 32)) else c.

(** [text.lower()] *)
Fixpoint lower (s : string) : string :=
  match s with
  | EmptyString => EmptyString
  | String c s' => String (lower_char c) (lower s')
  end.

(** [re.sub(r'[^\w\s]', '', text)]: every character that is neither a word
    character nor white space is deleted. *)
Fixpoint re_sub_punct (s : string) : string :=
  match s with
  | EmptyString => EmptyString
  | String c s' =>
      if isword c || isspace c then String c (re_sub_punct s')
      else re_sub_punct s'
  end.

(** [" ".join(xs)] *)
Definition join (xs : list string) : string := String.concat " " xs.

(** A run of characters makes a token unless it is empty. *)
Definition emit (span : string) : list string :=
  if decide (span = EmptyString) then [] else [span].

(** [txt.split()]: the maximal runs of characters that are not white
    space. [word] is the run read so far. *)
Fixpoint split_from (word s : string) : list string :=
  match s with
  | EmptyString => emit word
  | String c s' =>
      if isspace c then emit word ++ split_from EmptyString s'
      else split_from (word ++ String c EmptyString) s'
  end.

Definition split (s : string) : list string := split_from EmptyString s.

(** [str(n)] for an integer, as [astype(str)] applies it to an int64
    column. *)
Definition str (n : Z) : string := NilZero.string_of_int (Z.to_int n).

(** ** The tables

    [avatar] is the loaded table, of which the script reads four columns.
    [book_num] and [chapter_num] are integer columns.  [imdb_rating] is a
    float column whose blank cells are NaN ([None]); a rating is used as a
    grouping key only, so it is kept as the exact decimal of its cell. *)

Module Avatar.
Record row := Row {
  book_num : Z;
  chapter_num : Z;
  imdb_rating : option Qc;
  character_words : string
}.
End Avatar.

(** A row of [new_df] once line 24 has added the identifier column. *)
Module NewDf.
Record row := Row {
  book_num : Z;
  chapter_num : Z;
  imdb_rating : Qc;
  character_words : string;
  season_episode : string
}.
End NewDf.

(** ** Aggregator (lines 23-25) *)

(** The grouping key of [groupby(['book_num', 'chapter_num',
    'imdb_rating'])]. *)
Definition key : Type := Z * Z * Qc.

(** [groupby] leaves out the rows with a NaN in a key column
    ([dropna=True] is its default). *)
Definition group_key (r : Avatar.row) : option key :=
  match Avatar.imdb_rating r with
  | Some q => Some (Avatar.book_num r, Avatar.chapter_num r, q)
  | None => None
  end.

(** One step of the [sum] over an object column: the text of the row is
    appended to what its group has so far; a new group starts at the end. *)
Fixpoint add_to_group (k : key) (w : string) (groups : list (key * string))
  : list (key * string) :=
  match groups with
  | [] => [(k, w)]
  | (k', acc) :: rest =>
      if decide (k = k') then (k', acc ++ w) :: rest
      else (k', acc) :: add_to_group k w rest
  end.

Definition group_step (groups : list (key * string)) (r : Avatar.row)
  : list (key * string) :=
  match group_key r with
  | Some k => add_to_group k (Avatar.character_words r) groups
  | None => groups
  end.

(** The rows are read in source order. *)
Definition group_sum (avatar : list Avatar.row) : list (key * string) :=
  fold_left group_step avatar [].

(** The groups come out sorted by key ([sort=True]), column by column. *)
Definition key_le (k1 k2 : key) : Prop :=
  let '(b1, c1, q1) := k1 in
  let '(b2, c2, q2) := k2 in
  b1 < b2 ∨ (b1 = b2 ∧ (c1 < c2 ∨ (c1 = c2 ∧ (q1 <= q2)%Qc))).

#[global] Instance key_le_dec (k1 k2 : key) : Decision (key_le k1 k2).
Proof. destruct k1 as [[b1 c1] q1], k2 as [[b2 c2] q2]. simpl. apply _. Defined.

Definition group_le (g1 g2 : key * string) : Prop := key_le g1.1 g2.1.

#[global] Instance group_le_dec (g1 g2 : key * string) : Decision (group_le g1 g2).
Proof. unfold group_le. apply _. Defined.

Definition groupby_sum (avatar : list Avatar.row) : list (key * string) :=
  merge_sort group_le (group_sum avatar).

(** [reset_index()] turns the key back into columns; line 24 adds
    ['season-episode']. *)
Definition new_df_row (g : key * string) : NewDf.row :=
  let '((b, c, q), w) := g in
  NewDf.Row b c q w (str b ++ "-" ++ str c).

Definition new_df (avatar : list Avatar.row) : list NewDf.row :=
  new_df_row <$> groupby_sum avatar.

(** *** [new_df.to_csv('new.df.csv')]

    A CSV file is kept as its header and its records, cell by cell (the
    quoting of a text cell and the digits of a float are left to pandas).
    [to_csv] writes the index as well ([index=True] is its default): an
    unnamed first column that counts the rows from 0. *)

Inductive cell :=
  | Int (n : Z)
  | Float (q : Qc)
  | Str (s : string).

Record csv := Csv { header : list string; records : list (list cell) }.

Definition columns : list string :=
  ["book_num"; "chapter_num"; "imdb_rating"; "character_words"; "season-episode"].

Definition csv_record (i : nat) (r : NewDf.row) : list cell :=
  [Int (Z.of_nat i); Int (NewDf.book_num r); Int (NewDf.chapter_num r);
   Float (NewDf.imdb_rating r); Str (NewDf.character_words r);
   Str (NewDf.season_episode r)].

Definition to_csv (df : list NewDf.row) : csv :=
  Csv (EmptyString :: columns) (imap csv_record df).

(** The working directory, by file name; writing a file replaces what the
    name held. *)
Definition write_file (name : string) (data : csv) (fs : gmap string csv)
  : gmap string csv :=
  <[name := data]> fs.

(** ** Errors

    The script catches nothing: the first error ends the run. *)

Inductive exn :=
  | NameError (name : string)
  | AttributeError (attr : string)
  | KeyError (column : string).

Definition result (A : Type) : Type := exn + A.

Definition ok {A} (a : A) : result A := inr a.
Definition raise {A} (e : exn) : result A := inl e.

#[global] Instance result_ret : MRet result := λ A a, inr a.
#[global] Instance result_bind : MBind result := λ A B f m,
  match m with
  | inl e => inl e
  | inr a => f a
  end.

(** ** Rows of the later tables *)

Set Implicit Arguments.
Set Maximal Implicit Insertion.

(** The dictionary [sentiment.polarity_scores(txt)] returns. *)
Module Polarity.
Record scores (F : Type) := Scores { neg : F; neu : F; pos : F; compound : F }.
End Polarity.

Module SentimentData.
Record row (F : Type) := Row {
  id : nat;
  negative_score : F;
  neutral_score : F;
  positive_score : F;
  compound_score : F;
  character_words : string
}.
End SentimentData.

Module OtherData.
Record row (V D : Type) := Row { valence : V; arousal : V; description : D }.
End OtherData.

(** What the script expects of the object it calls [s]: [s.sentiment(terms)]
    is indexed by ['valence'] and ['arousal'], [s.describe(terms)] is kept
    as it comes. *)
Module Affect.
Record scores (V : Type) := Scores { valence : V; arousal : V }.
Record analyzer (V D : Type) := Analyzer {
  sentiment : list string → scores V;
  describe : list string → D
}.
End Affect.

(** A row of [sentiment_data] after lines 101-107.  A cell is empty
    ([None]) where the table the column comes from has no row of the same
    index; the six columns of the polarity table are empty throughout when
    that table was made from an empty list, and so has no column. *)
Module Final.
Record row (F V D : Type) := Row {
  id : option nat;
  negative_score : option F;
  neutral_score : option F;
  positive_score : option F;
  compound_score : option F;
  character_words : option string;
  arousal_score : option V;
  valence_score : option V;
  description : option D;
  imdb_rating : option Qc;
  season : option Z
}.
End Final.

Unset Maximal Implicit Insertion.
Unset Implicit Arguments.

(** ** Name lookup

    The names the module has bound when line 90 runs: the imports of lines
    8-13 and the targets of every assignment and [for] of lines 16-89 (the
    [token] of the comprehension is local to it). *)
Definition bound_names : list string :=
  ["pd"; "np"; "re"; "nltk"; "spacy"; "SentimentIntensityAnalyzer";
   "avatar"; "new_df"; "i"; "ep_id"; "filtered_text"; "nlp"; "text";
   "stop_words"; "tokens"; "nlp_tokens"; "filter_text_df"; "sentiment";
   "txt"; "sentences"; "sentence"; "score"; "sentiment_data"; "df_rows";
   "other_data"; "row"; "terms"].

(** A global name is looked up when the expression is evaluated ([value]
    is what the name would hold); no builtin is called [s]. *)
Definition load_name {A} (name : string) (value : A) : result A :=
  if decide (name ∈ bound_names) then ok value else raise (NameError name).

(** ** The pipeline *)

Section Pipeline.
(** [F]: the floats of the polarity scores; [V], [D]: what the affect
    analyzer would return. *)
Context {F V D : Type}.

(** The texts of the tokens of [nlp(text)], for the model loaded at
    line 38. *)
Variable nlp : string → list string.
(** [nltk.corpus.stopwords.words('english')] *)
Variable stop_words : list string.
(** [sentiment.polarity_scores] *)
Variable polarity_scores : string → Polarity.scores F.
(** What [s] would denote, were the name bound. *)
Variable s : Affect.analyzer V D.

(** *** Text normalizer (lines 37-48) *)

(** Lines 41-42. *)
Definition cleaned (words : string) : string := re_sub_punct (lower words).

(** Lines 41-42 and 46-48: the cleaning of one text. *)
Definition normalize (words : string) : string := join (nlp (cleaned words)).

(** The loop of lines 39-48: a text is appended unless, cleaned, it is as
    a whole an entry of the stop-word list. *)
Fixpoint filtered_text (new_df : list NewDf.row) : list string :=
  match new_df with
  | [] => []
  | r :: rest =>
      let text := cleaned (NewDf.character_words r) in
      if decide (text ∈ stop_words) then filtered_text rest
      else join (nlp text) :: filtered_text rest
  end.

(** Line 59: [filter_text_df.filtered_text[0]].  An empty list makes a
    table without columns, so the attribute is missing. *)
Definition first_text (filtered : list string) : result string :=
  match filtered with
  | [] => raise (AttributeError "filtered_text")
  | txt :: _ => ok txt
  end.

(** *** Sentiment scorer (lines 67-97) *)

Definition sentiment_row (i : nat) (txt : string) : SentimentData.row F :=
  let score := polarity_scores txt in
  SentimentData.Row i (Polarity.neg score) (Polarity.neu score)
    (Polarity.pos score) (Polarity.compound score) txt.

Definition sentiment_data (filtered : list string) : list (SentimentData.row F) :=
  imap sentiment_row filtered.

(** The body of the loop of lines 87-97. *)
Definition other_row (txt : string) : result (OtherData.row V D) :=
  let terms := split txt in
  s1 ← load_name "s" s;
  let a_v_score := Affect.sentiment s1 terms in
  s2 ← load_name "s" s;
  let description := Affect.describe s2 terms in
  mret (OtherData.Row (Affect.valence a_v_score) (Affect.arousal a_v_score)
          description).

Definition other_data (filtered : list string) : result (list (OtherData.row V D)) :=
  mapM other_row filtered.

(** *** Merger (lines 100-107)

    [df[c] = other[c']] aligns on the index of [df]; every table here is
    indexed 0, 1, 2, ..., so row [i] takes the value of row [i].  A table
    made from an empty list has neither rows nor columns: as [other] it has
    no column to select, and as [df] it takes the index of the first column
    assigned to it. *)
Definition merged_index (scores : list (SentimentData.row F))
    (other : list (OtherData.row V D)) : list nat :=
  match scores with
  | [] => seq 0 (length other)
  | _ => seq 0 (length scores)
  end.

Definition merged_row (scores : list (SentimentData.row F))
    (other : list (OtherData.row V D)) (new_df : list NewDf.row)
    (i : nat) : Final.row F V D :=
  Final.Row (SentimentData.id <$> scores !! i)
    (SentimentData.negative_score <$> scores !! i)
    (SentimentData.neutral_score <$> scores !! i)
    (SentimentData.positive_score <$> scores !! i)
    (SentimentData.compound_score <$> scores !! i)
    (SentimentData.character_words <$> scores !! i)
    (OtherData.arousal <$> other !! i)
    (OtherData.valence <$> other !! i)
    (OtherData.description <$> other !! i)
    (NewDf.imdb_rating <$> new_df !! i)
    (NewDf.book_num <$> new_df !! i).

Definition merger (scores : list (SentimentData.row F))
    (other : list (OtherData.row V D)) (new_df : list NewDf.row)
  : result (list (Final.row F V D)) :=
  match other with
  | [] => raise (KeyError "arousal")
  | _ => ok (merged_row scores other new_df <$> merged_index scores other)
  end.

(** *** The script, from the loaded table on

    The run returns the working directory it leaves and either the final
    table or the error that ended it.  Console output is not kept. *)
Definition run (fs : gmap string csv) (avatar : list Avatar.row)
  : gmap string csv * result (list (Final.row F V D)) :=
  let df := new_df avatar in
  let fs' := write_file "new.df.csv" (to_csv df) fs in
  let filtered := filtered_text df in
  (fs',
   _ ← first_text filtered;
   let scores := sentiment_data filtered in
   other ← other_data filtered;
   merger scores other df).

End Pipeline.

(** ** Tokenizers to run the pipeline with

    [split] above is one.  The other treats white space the way the spaCy
    tokenizer does: a word takes the single space that follows it, and any
    other white space stands as a token of its own; words are left whole.
    [in_ws] tells whether the run being read is white space, [span] is the
    run read so far. *)

Fixpoint scan_tokens (in_ws : bool) (span s : string) : list string :=
  match s with
  | EmptyString => emit span
  | String c s' =>
      if decide (isspace c = in_ws) then scan_tokens in_ws (span ++ String c EmptyString) s'
      else emit span ++
           (if decide (c = " "%char) then scan_tokens (negb in_ws) EmptyString s'
            else scan_tokens (negb in_ws) (String c EmptyString) s')
  end.

Definition whitespace_tokens (s : string) : list string :=
  match s with
  | EmptyString => []
  | String c _ => scan_tokens (isspace c) EmptyString s
  end.

(** ** Notions the properties are stated with *)

(** The characters of a text. *)
Definition chars (s : string) : list ascii := list_ascii_of_string s.

(** A word: not empty, no white space in it. *)
Definition is_word (x : string) : Prop :=
  x ≠ EmptyString ∧ Forall (λ c, isspace c = false) (chars x).

(** What the first two steps of the cleaning leave: lower-case word
    characters and white space. *)
Definition plain_char (c : ascii) : bool :=
  (isword c || isspace c) && negb (isupper c).

(** The key columns of a row as the table has them, the rating blank or
    not. *)
Definition key_columns (r : Avatar.row) : Z * Z * option Qc :=
  (Avatar.book_num r, Avatar.chapter_num r, Avatar.imdb_rating r).

(** A grouping key, read as the key cells of a row that has a rating. *)
Definition rated (k : key) : Z * Z * option Qc := (k.1.1, k.1.2, Some k.2).

(** The dialogue of the rows of group [k], in the order of the table. *)
Definition fragments (k : key) (avatar : list Avatar.row) : list string :=
  Avatar.character_words <$> filter (λ r, group_key r = Some k) avatar.

(** The text a group has accumulated, if the group exists. *)
Fixpoint group_text (k : key) (groups : list (key * string)) : option string :=
  match groups with
  | [] => None
  | (k', w) :: rest => if decide (k = k') then Some w else group_text k rest
  end.

(** The table of the example scenario. *)
Definition example_avatar : list Avatar.row :=
  [Avatar.Row 1 1 (Some (Q2Qc (85 # 10))) "Hello world.";
   Avatar.Row 1 2 (Some (Q2Qc (9 # 1))) "Goodbye world."].

(** An episode whose whole dialogue is one stop word. *)
Definition one_word_episode : list Avatar.row :=
  [Avatar.Row 1 1 (Some (Q2Qc (85 # 10))) "No.";
   Avatar.Row 1 2 (Some (Q2Qc (9 # 1))) "Goodbye world."].

(** An episode whose rating cell is blank. *)
Definition unrated_episode : list Avatar.row :=
  [Avatar.Row 1 20 None "Hello world."].

(** Two lines of dialogue of one episode. *)
Definition two_lines : list Avatar.row :=
  [Avatar.Row 1 1 (Some (Q2Qc (85 # 10))) "Hello there";
   Avatar.Row 1 1 (Some (Q2Qc (85 # 10))) "General Kenobi"].

(** Texts put end to end, nothing in between. *)
Definition glue (xs : list string) : string := foldr String.append EmptyString xs.

(** ** Stand-ins for the packages, to run the pipeline on examples *)

(** A few entries of the English stop-word list. *)
Definition some_stop_words : list string :=
  ["i"; "me"; "my"; "the"; "and"; "no"; "not"; "so"].

(** An analyzer that finds every text neutral. *)
Definition neutral_scores (txt : string) : Polarity.scores Q :=
  Polarity.Scores 0%Q 1%Q 0%Q 0%Q.

(** An affect analyzer, for the case that [s] were bound. *)
Definition flat_affect : Affect.analyzer Q string :=
  Affect.Analyzer (λ _, Affect.Scores 0%Q 0%Q) (λ _, EmptyString).

(** ** The rest of the script *)

(** Line 20: the identifier column added to [avatar] itself. *)
Definition avatar_season_episode (r : Avatar.row) : string :=
  str (Avatar.book_num r) ++ "-" ++ str (Avatar.chapter_num r).

(** The key columns of a row of [new_df]. *)
Definition row_key (r : NewDf.row) : key :=
  (NewDf.book_num r, NewDf.chapter_num r, NewDf.imdb_rating r).

(** The order of two rows of [new_df] by their key columns. *)
Definition row_le (r1 r2 : NewDf.row) : Prop := key_le (row_key r1) (row_key r2).

(** [txt.split(sep)] for a separator of one character: the text is cut at
    every occurrence of it, and empty pieces are kept. [piece] is the piece
    read so far. *)
Fixpoint split_at (sep : ascii) (piece s : string) : list string :=
  match s with
  | EmptyString => [piece]
  | String c s' =>
      if decide (c = sep) then piece :: split_at sep EmptyString s'
      else split_at sep (piece ++ String c EmptyString) s'
  end.

(** Line 60: [sentences = txt.split('.')]. *)
Definition sentences (txt : string) : list string :=
  split_at "."%char EmptyString txt.

(** [sep.join(xs)] for a separator of one character. *)
Definition join_with (sep : ascii) (xs : list string) : string :=
  String.concat (String sep EmptyString) xs.

(** The number of characters of a list of texts. *)
Definition total_length (xs : list string) : nat :=
  sum_list_with String.length xs.

(** A run of digits: not empty, no hyphen in it. *)
Definition digits (d : string) : Prop :=
  d ≠ EmptyString ∧ Forall (λ c, c ≠ "-"%char) (chars d).

(** The table of the example scenario, second row first. *)
Definition example_avatar_swapped : list Avatar.row :=
  [Avatar.Row 1 2 (Some (Q2Qc (9 # 1))) "Goodbye world.";
   Avatar.Row 1 1 (Some (Q2Qc (85 # 10))) "Hello world."].

(** One episode entered with two ratings. *)
Definition rerated_episode : list Avatar.row :=
  [Avatar.Row 1 1 (Some (Q2Qc (85 # 10))) "Hello world.";
   Avatar.Row 1 1 (Some (Q2Qc (9 # 1))) "Goodbye world."].

(** * Properties *)

(** ** Aggregator *)

Lemma string_app_cons x (a b : string) : String x a ++ b = String x (a ++ b).
Proof. reflexivity. Qed.

Lemma string_app_assoc (a b c : string) : (a ++ b) ++ c = a ++ (b ++ c).
Proof.
  induction a as [|x a IH]; [done |]. rewrite !string_app_cons. by rewrite IH.
Qed.

Lemma string_app_nil_r (a : string) : a ++ EmptyString = a.
Proof.
  induction a as [|x a IH]; [done |]. rewrite string_app_cons. by rewrite IH.
Qed.

Lemma add_to_group_keys k w (groups : list (key * string)) :
  (add_to_group k w groups).*1 =
  if decide (k ∈ groups.*1) then groups.*1 else (groups.*1 ++ [k])%list.
Proof.
  induction groups as [|[k' acc] rest IH]; csimpl.
  - destruct (decide (k ∈ [])) as [H|H]; [by apply elem_of_nil in H | done].
  - destruct (decide (k = k')) as [->|Hne]; csimpl.
    + rewrite decide_True; [done | left].
    + rewrite IH. destruct (decide (k ∈ rest.*1)) as [Hin|Hnin].
      * rewrite decide_True; [done | by right].
      * rewrite decide_False; [done |].
        intros [?|?]%elem_of_cons; done.
Qed.

Lemma add_to_group_NoDup k w (groups : list (key * string)) :
  NoDup groups.*1 → NoDup (add_to_group k w groups).*1.
Proof.
  intros Hnd. rewrite add_to_group_keys. case_decide as Hin; [done |].
  apply NoDup_app. split_and!; [done | | apply NoDup_singleton].
  intros x Hx ->%list_elem_of_singleton. done.
Qed.

Lemma add_to_group_elem k k' w (groups : list (key * string)) :
  k' ∈ (add_to_group k w groups).*1 ↔ k' = k ∨ k' ∈ groups.*1.
Proof.
  rewrite add_to_group_keys. case_decide as Hin.
  - split; [by right | intros [->|?]; done].
  - rewrite elem_of_app, list_elem_of_singleton. tauto.
Qed.

Lemma group_step_NoDup groups r :
  NoDup groups.*1 → NoDup (group_step groups r).*1.
Proof.
  unfold group_step. destruct (group_key r); [apply add_to_group_NoDup | done].
Qed.

Lemma fold_group_step_NoDup avatar groups :
  NoDup groups.*1 → NoDup (fold_left group_step avatar groups).*1.
Proof.
  revert groups. induction avatar as [|r rest IH]; intros groups Hnd; simpl.
  - done.
  - by apply IH, group_step_NoDup.
Qed.

Lemma fold_group_step_elem avatar groups k :
  k ∈ (fold_left group_step avatar groups).*1 ↔
  k ∈ groups.*1 ∨ k ∈ omap group_key avatar.
Proof.
  revert groups. induction avatar as [|r rest IH]; intros groups; simpl.
  - rewrite elem_of_nil. tauto.
  - rewrite IH. unfold group_step. destruct (group_key r) as [k'|]; simpl.
    + rewrite add_to_group_elem, elem_of_cons. tauto.
    + tauto.
Qed.

Lemma group_sum_NoDup avatar : NoDup (group_sum avatar).*1.
Proof. apply fold_group_step_NoDup. simpl. apply NoDup_nil_2. Qed.

Lemma group_sum_elem avatar k :
  k ∈ (group_sum avatar).*1 ↔ k ∈ omap group_key avatar.
Proof.
  unfold group_sum. rewrite fold_group_step_elem. simpl.
  rewrite elem_of_nil. tauto.
Qed.

(** The groups are the distinct keys, whatever their order. *)
Lemma group_sum_keys avatar :
  (group_sum avatar).*1 ≡ₚ remove_dups (omap group_key avatar).
Proof.
  apply NoDup_Permutation.
  - apply group_sum_NoDup.
  - apply NoDup_remove_dups.
  - intros k. by rewrite group_sum_elem, elem_of_remove_dups.
Qed.

Lemma groupby_sum_Permutation avatar : groupby_sum avatar ≡ₚ group_sum avatar.
Proof. apply merge_sort_Permutation. Qed.

Lemma length_new_df avatar : length (new_df avatar) = length (group_sum avatar).
Proof.
  unfold new_df. rewrite length_fmap. by rewrite groupby_sum_Permutation.
Qed.

(** What a group holds after one more row, and after all of them. *)
Lemma group_text_add k k' w groups :
  group_text k (add_to_group k' w groups) =
  if decide (k = k') then Some (default EmptyString (group_text k groups) ++ w)
  else group_text k groups.
Proof.
  induction groups as [|[k0 acc] rest IH]; simpl.
  - destruct (decide (k = k')); done.
  - destruct (decide (k' = k0)) as [->|Hne]; simpl.
    + destruct (decide (k = k0)); done.
    + destruct (decide (k = k0)) as [->|Hne'].
      * rewrite decide_False by done. done.
      * apply IH.
Qed.

Lemma fragments_cons k r avatar :
  fragments k (r :: avatar) =
  if decide (group_key r = Some k)
  then Avatar.character_words r :: fragments k avatar
  else fragments k avatar.
Proof. unfold fragments. rewrite filter_cons. by destruct (decide _). Qed.

Lemma group_text_fold k avatar groups :
  group_text k (fold_left group_step avatar groups) =
  if decide (fragments k avatar = [] ∧ group_text k groups = None) then None
  else Some (default EmptyString (group_text k groups) ++ glue (fragments k avatar)).
Proof.
  revert groups. induction avatar as [|r rest IH]; intros groups.
  - cbn [fold_left]. unfold fragments. rewrite filter_nil, fmap_nil. cbn [glue foldr].
    rewrite string_app_nil_r.
    destruct (decide _) as [[_ H]|H].
    + done.
    + destruct (group_text k groups); [done | by destruct H].
  - cbn [fold_left]. rewrite IH, fragments_cons. unfold group_step.
    destruct (group_key r) as [k'|] eqn:Ek.
    + rewrite group_text_add. destruct (decide (k = k')) as [->|Hne].
      * rewrite (decide_True (P := Some k' = Some k')) by done.
        destruct (decide (_ ∧ _)) as [[_ H]|_]; [done |].
        destruct (decide (_ ∧ _)) as [[H _]|_]; [done |].
        change (glue (?x :: ?xs)) with (x ++ glue xs).
        change (default EmptyString (Some ?x)) with x.
        by rewrite string_app_assoc.
      * rewrite (decide_False (P := Some k' = Some k)) by congruence. done.
    + rewrite (decide_False (P := None = Some k)) by done. done.
Qed.

Lemma group_text_elem k w (groups : list (key * string)) :
  NoDup groups.*1 → (k, w) ∈ groups → group_text k groups = Some w.
Proof.
  induction groups as [|[k0 acc] rest IH]; simpl; intros Hnd Hin.
  - by apply elem_of_nil in Hin.
  - apply NoDup_cons in Hnd as [Hk0 Hnd].
    apply elem_of_cons in Hin as [[= -> ->]|Hin].
    + by rewrite decide_True.
    + rewrite decide_False; [by apply IH |].
      intros ->. apply Hk0. apply list_elem_of_fmap. by exists (k0, w).
Qed.

Lemma group_sum_text k w avatar :
  (k, w) ∈ group_sum avatar → w = glue (fragments k avatar).
Proof.
  intros Hin.
  pose proof (group_text_elem k w _ (group_sum_NoDup avatar) Hin) as Ht.
  unfold group_sum in Ht. rewrite group_text_fold in Ht. simpl in Ht.
  case_decide; [done |]. change (EmptyString ++ ?x) with x in Ht. congruence.
Qed.

Lemma remove_dups_fmap_length {A B} `{EqDecision A, EqDecision B}
    (f : A → B) `{!Inj (=) (=) f} (l : list A) :
  length (remove_dups (f <$> l)) = length (remove_dups l).
Proof.
  rewrite <- (length_fmap f (remove_dups l)).
  apply Permutation_length, NoDup_Permutation.
  - apply NoDup_remove_dups.
  - apply NoDup_fmap_2; [done | apply NoDup_remove_dups].
  - intros y. rewrite elem_of_remove_dups, !list_elem_of_fmap.
    setoid_rewrite elem_of_remove_dups. done.
Qed.

Lemma rated_inj : Inj (=) (=) rated.
Proof. intros [[b c] q] [[b' c'] q'] [=]. by simplify_eq. Qed.

Lemma key_columns_rated avatar :
  Forall (λ r, is_Some (Avatar.imdb_rating r)) avatar →
  key_columns <$> avatar = rated <$> omap group_key avatar.
Proof.
  induction 1 as [|r rest [q Hq] _ IH]; [done |].
  csimpl. unfold group_key at 1. rewrite Hq. csimpl. rewrite <- IH.
  unfold key_columns at 1. by rewrite Hq.
Qed.

Lemma str_decimal n : Z.of_int <$> NilZero.int_of_string (str n) = Some n.
Proof.
  unfold str. rewrite NilZero.isi.
  - simpl. by rewrite of_to.
  - destruct n; simpl; try done. intros [= H]. by apply Unsigned.to_uint_nonnil in H.
  - destruct n; simpl; try done. intros [= H]. by apply Unsigned.to_uint_nonnil in H.
Qed.

Lemma key_le_total : Total key_le.
Proof.
  intros [[b1 c1] q1] [[b2 c2] q2]. unfold key_le.
  destruct (Qclt_le_dec q1 q2) as [Hq%Qclt_le_weak|Hq];
  destruct (Z.lt_trichotomy b1 b2) as [?|[->|?]];
  destruct (Z.lt_trichotomy c1 c2) as [?|[->|?]]; auto 10.
Qed.

Lemma group_le_total : Total group_le.
Proof. intros g1 g2. apply key_le_total. Qed.

(** The rows of the output are in the order of their keys. *)
Lemma groupby_sum_sorted avatar : Sorted group_le (groupby_sum avatar).
Proof. apply (Sorted_merge_sort group_le (Total0 := group_le_total)). Qed.

Lemma new_df_elem r avatar :
  r ∈ new_df avatar →
  ∃ g, g ∈ group_sum avatar ∧ r = new_df_row g.
Proof.
  unfold new_df. intros (g & -> & Hg)%list_elem_of_fmap.
  exists g. split; [| done]. by rewrite <- groupby_sum_Permutation.
Qed.

Lemma length_group_sum avatar :
  length (group_sum avatar) = length (remove_dups (omap group_key avatar)).
Proof.
  rewrite <- (length_fmap fst (group_sum avatar)).
  apply Permutation_length, group_sum_keys.
Qed.

(** C2 (as amended): the aggregator returns one row for each distinct
    (book_num, chapter_num, imdb_rating) combination among the input rows
    that have a rating; a row whose rating cell is blank belongs to no
    group. *)
Theorem new_df_row_count avatar :
  length (new_df avatar) = length (remove_dups (omap group_key avatar)).
Proof. rewrite length_new_df. apply length_group_sum. Qed.

(** On a table without blank ratings the count is that of the distinct
    triples of key cells. *)
Lemma new_df_row_count_rated avatar :
  Forall (λ r, is_Some (Avatar.imdb_rating r)) avatar →
  length (new_df avatar) = length (remove_dups (key_columns <$> avatar)).
Proof.
  intros Hr. rewrite length_new_df, length_group_sum, (key_columns_rated _ Hr).
  symmetry. apply (remove_dups_fmap_length rated (Inj0 := rated_inj)).
Qed.

(** C2 as stated fails: one input row with a blank rating has one key
    combination and gives no output row. *)
Lemma new_df_row_count_unrated :
  length (new_df unrated_episode)
  ≠ length (remove_dups (key_columns <$> unrated_episode)).
Proof. vm_compute. discriminate. Qed.

(** C3: in every row of the aggregator output the season-episode
    identifier is the decimal rendering of book_num, a hyphen, and the
    decimal rendering of chapter_num. *)
Theorem season_episode_format avatar :
  Forall (λ r, NewDf.season_episode r
               = str (NewDf.book_num r) ++ "-" ++ str (NewDf.chapter_num r))
         (new_df avatar).
Proof.
  unfold new_df. apply Forall_fmap, Forall_forall.
  intros [[[b c] q] w] _. reflexivity.
Qed.

(** C9: the text of an output row is the dialogue of the input rows of its
    group put end to end in source order, with nothing in between; so the
    last word of a line and the first word of the next come out as one
    word. *)
Theorem character_words_glued avatar :
  Forall (λ r, NewDf.character_words r
               = glue (fragments (NewDf.book_num r, NewDf.chapter_num r,
                                  NewDf.imdb_rating r) avatar))
         (new_df avatar)
  ∧ NewDf.character_words <$> new_df two_lines = ["Hello thereGeneral Kenobi"]
  ∧ split (re_sub_punct (lower "Hello thereGeneral Kenobi"))
    = ["hello"; "theregeneral"; "kenobi"].
Proof.
  split; [| split; vm_compute; reflexivity].
  apply Forall_forall. intros r (g & Hg & ->)%new_df_elem.
  destruct g as [[[b c] q] w]. simpl. by apply group_sum_text.
Qed.

(** ** Text normalizer *)

Example cleaned_hello : cleaned "Hello world." = "hello world".
Proof. reflexivity. Qed.

Example cleaned_keeps_white_space :
  cleaned "Wait - what?" = "wait  what" ∧ cleaned "It's_ok, Aang!" = "its_ok aang".
Proof. split; reflexivity. Qed.

Example split_runs : split "  the  avatar returns " = ["the"; "avatar"; "returns"].
Proof. reflexivity. Qed.

Example whitespace_tokens_runs :
  whitespace_tokens "hello world" = ["hello"; "world"]
  ∧ whitespace_tokens "wait  what" = ["wait"; " "; "what"].
Proof. split; reflexivity. Qed.

Example str_numbers : str 12 = "12" ∧ str 0 = "0" ∧ str (-3) = "-3".
Proof. split_and!; reflexivity. Qed.

Lemma lower_char_not_upper c : isupper (lower_char c) = false.
Proof. destruct c as [[] [] [] [] [] [] [] []]; reflexivity. Qed.

Lemma lower_char_plain c : plain_char c = true → lower_char c = c.
Proof.
  unfold plain_char, lower_char. intros [_ H]%andb_true_iff.
  apply negb_true_iff in H. by rewrite H.
Qed.

Lemma plain_char_kept c :
  plain_char c = true → isword c || isspace c = true.
Proof. unfold plain_char. by intros [? _]%andb_true_iff. Qed.

Lemma chars_app (a b : string) : chars (a ++ b) = (chars a ++ chars b)%list.
Proof.
  induction a as [|x a IH]; [done |].
  rewrite string_app_cons. simpl. by rewrite <- IH.
Qed.

(** The first two steps leave plain characters only ... *)
Lemma cleaned_plain s : Forall (λ c, plain_char c = true) (chars (cleaned s)).
Proof.
  unfold cleaned. induction s as [|c s IH]; simpl; [constructor |].
  destruct (isword (lower_char c) || isspace (lower_char c)) eqn:E; [| done].
  simpl. constructor; [| done].
  unfold plain_char. by rewrite E, lower_char_not_upper.
Qed.

(** ... and change nothing in a text of plain characters. *)
Lemma cleaned_of_plain s :
  Forall (λ c, plain_char c = true) (chars s) → cleaned s = s.
Proof.
  unfold cleaned. induction s as [|c s IH]; simpl; [done |].
  intros [Hc Hs]%Forall_cons. rewrite (lower_char_plain _ Hc).
  rewrite (plain_char_kept _ Hc). by rewrite IH.
Qed.

Lemma cleaned_idempotent s : cleaned (cleaned s) = cleaned s.
Proof. apply cleaned_of_plain, cleaned_plain. Qed.

Lemma join_cons x y (xs : list string) :
  join (x :: y :: xs) = x ++ " " ++ join (y :: xs).
Proof. reflexivity. Qed.

Lemma join_plain (xs : list string) :
  Forall (λ x, Forall (λ c, plain_char c = true) (chars x)) xs →
  Forall (λ c, plain_char c = true) (chars (join xs)).
Proof.
  induction xs as [|x xs IH]; [constructor |].
  intros [Hx Hxs]%Forall_cons. destruct xs as [|y xs]; [done |].
  rewrite join_cons, !chars_app. apply Forall_app. split; [done |].
  apply Forall_app. split; [| by apply IH].
  by repeat constructor.
Qed.

(** *** [split] as the tokenizer *)

Lemma split_from_word w x s :
  Forall (λ c, isspace c = false) (chars x) →
  split_from w (x ++ s) = split_from (w ++ x) s.
Proof.
  revert w. induction x as [|c x IH]; intros w Hx.
  - by rewrite string_app_nil_r.
  - apply Forall_cons in Hx as [Hc Hx].
    rewrite string_app_cons. cbn [split_from]. rewrite Hc, (IH _ Hx).
    by rewrite string_app_assoc.
Qed.

Lemma split_from_space w s :
  split_from w (" " ++ s) = (emit w ++ split_from EmptyString s)%list.
Proof. reflexivity. Qed.

Lemma split_from_words w s :
  Forall (λ c, isspace c = false) (chars w) →
  Forall is_word (split_from w s).
Proof.
  revert w. induction s as [|c s IH]; intros w Hw; cbn [split_from].
  - unfold emit. destruct (decide _); by repeat constructor.
  - destruct (isspace c) eqn:Hc.
    + apply Forall_app. split; [| by apply IH; constructor].
      unfold emit. destruct (decide _); by repeat constructor.
    + apply IH. rewrite chars_app. apply Forall_app. split; [done |].
      by repeat constructor.
Qed.

Lemma split_from_chars (P : ascii → Prop) w s :
  Forall P (chars w) → Forall P (chars s) →
  Forall (λ token, Forall P (chars token)) (split_from w s).
Proof.
  revert w. induction s as [|c s IH]; intros w Hw Hs; cbn [split_from].
  - unfold emit. destruct (decide _); by repeat constructor.
  - apply Forall_cons in Hs as [Hc Hs]. destruct (isspace c).
    + apply Forall_app. split; [| by apply IH; [constructor |]].
      unfold emit. destruct (decide _); by repeat constructor.
    + apply IH; [| done]. rewrite chars_app. apply Forall_app.
      split; [done |]. by repeat constructor.
Qed.

(** Words joined by single spaces split into the same words. *)
Lemma split_join (xs : list string) :
  Forall is_word xs → split (join xs) = xs.
Proof.
  unfold split. induction xs as [|x xs IH]; [done |].
  intros [[Hne Hx] Hxs]%Forall_cons. destruct xs as [|y xs].
  - change (join [x]) with x.
    pose proof (split_from_word EmptyString x EmptyString Hx) as Hsplit.
    rewrite string_app_nil_r in Hsplit. rewrite Hsplit.
    change (EmptyString ++ x) with x. cbn [split_from]. unfold emit.
    by rewrite decide_False.
  - rewrite join_cons, (split_from_word _ _ _ Hx), split_from_space.
    change (EmptyString ++ x) with x.
    rewrite (IH Hxs). unfold emit. by rewrite decide_False.
Qed.

Lemma split_join_split s : split (join (split s)) = split s.
Proof. apply split_join. unfold split. apply split_from_words. constructor. Qed.

Section NormalizerProperties.
Variable nlp : string → list string.
Variable stop_words : list string.

(** The cleaned texts are those of the rows that pass the stop-word
    test, in the order of the rows. *)
Lemma filtered_text_filter (rows : list NewDf.row) :
  filtered_text nlp stop_words rows
  = (λ r, normalize nlp (NewDf.character_words r))
    <$> filter (λ r, cleaned (NewDf.character_words r) ∉ stop_words) rows.
Proof.
  induction rows as [|r rest IH]; [done |].
  cbn [filtered_text]. rewrite filter_cons.
  destruct (decide (cleaned (NewDf.character_words r) ∈ stop_words)) as [Hin|Hnin].
  - rewrite decide_False by (intros H; by apply H). done.
  - rewrite decide_True by done. rewrite fmap_cons. by rewrite IH.
Qed.

Lemma filtered_text_length (rows : list NewDf.row) :
  (length (filtered_text nlp stop_words rows) ≤ length rows)%nat.
Proof.
  rewrite filtered_text_filter, length_fmap. apply length_filter.
Qed.

(** The cleaned texts line up with the rows exactly when no row is
    dropped. *)
Lemma filtered_text_aligned (rows : list NewDf.row) :
  Forall (λ r, cleaned (NewDf.character_words r) ∉ stop_words) rows →
  filtered_text nlp stop_words rows
  = (λ r, normalize nlp (NewDf.character_words r)) <$> rows.
Proof.
  intros Hall. rewrite filtered_text_filter. f_equal.
  induction Hall as [|r rest Hr _ IH]; [done |].
  rewrite filter_cons, decide_True by done. by rewrite IH.
Qed.

Lemma filtered_text_dropped (rows : list NewDf.row) :
  Exists (λ r, cleaned (NewDf.character_words r) ∈ stop_words) rows →
  (length (filtered_text nlp stop_words rows) < length rows)%nat.
Proof.
  induction 1 as [r rest Hr|r rest _ IH]; cbn [filtered_text].
  - rewrite decide_True by done. cbn [length].
    pose proof (filtered_text_length rest). lia.
  - destruct (decide _); cbn [length]; [| lia].
    pose proof (filtered_text_length rest). lia.
Qed.

(** C1 (the code breaks it): an episode whose whole dialogue is the one
    word "No." is dropped by the stop-word test, so two aggregator rows
    give one cleaned text, and position 0 holds the text of row 1. *)
Theorem filtered_text_drops_row :
  "no" ∈ stop_words → "goodbye world" ∉ stop_words →
  length (new_df one_word_episode) = 2%nat
  ∧ filtered_text nlp stop_words (new_df one_word_episode)
    = [join (nlp "goodbye world")].
Proof.
  intros Hno Hgw. split; [reflexivity |].
  change (new_df one_word_episode) with
    [NewDf.Row 1 1 (Q2Qc (85 # 10)) "No." "1-1";
     NewDf.Row 1 2 (Q2Qc (9 # 1)) "Goodbye world." "1-2"].
  cbn [filtered_text NewDf.character_words].
  change (cleaned "No.") with "no".
  change (cleaned "Goodbye world.") with "goodbye world".
  rewrite decide_True by done. rewrite decide_False by done. done.
Qed.

(** C5: on the two rows of the example the aggregator gives the
    identifiers "1-1" and "1-2" and the normalizer the texts "hello world"
    and "goodbye world", in that order, for a tokenizer that divides the
    two cleaned texts at the space and a stop-word list that has neither
    of them as an entry. *)
Theorem example_scenario :
  nlp "hello world" = ["hello"; "world"] →
  nlp "goodbye world" = ["goodbye"; "world"] →
  "hello world" ∉ stop_words → "goodbye world" ∉ stop_words →
  NewDf.season_episode <$> new_df example_avatar = ["1-1"; "1-2"]
  ∧ filtered_text nlp stop_words (new_df example_avatar)
    = ["hello world"; "goodbye world"].
Proof.
  intros Hh Hg Hsh Hsg. split; [reflexivity |].
  change (new_df example_avatar) with
    [NewDf.Row 1 1 (Q2Qc (85 # 10)) "Hello world." "1-1";
     NewDf.Row 1 2 (Q2Qc (9 # 1)) "Goodbye world." "1-2"].
  cbn [filtered_text NewDf.character_words].
  change (cleaned "Hello world.") with "hello world".
  change (cleaned "Goodbye world.") with "goodbye world".
  rewrite !decide_False by done. by rewrite Hh, Hg.
Qed.

Lemma normalize_stable (words : string) :
  Forall (λ token, Forall (λ c, plain_char c = true) (chars token))
         (nlp (cleaned words)) →
  nlp (join (nlp (cleaned words))) = nlp (cleaned words) →
  normalize nlp (normalize nlp words) = normalize nlp words.
Proof.
  intros Hplain Hstable. unfold normalize.
  rewrite (cleaned_of_plain (join _)); [by rewrite Hstable |].
  by apply join_plain.
Qed.

(** C6 (as amended): lower-casing and stripping change nothing in a text
    they have produced; the whole cleaning step returns its own output
    unchanged when the tokens are made of characters of the text they
    come from and the tokenizer, run on these tokens joined by single
    spaces, returns them again. *)
Theorem normalize_fixed_point (words : string) :
  cleaned (cleaned words) = cleaned words
  ∧ (Forall (λ token, Forall (λ c, c ∈ chars (cleaned words)) (chars token))
            (nlp (cleaned words)) →
     nlp (join (nlp (cleaned words))) = nlp (cleaned words) →
     normalize nlp (normalize nlp words) = normalize nlp words).
Proof.
  split; [apply cleaned_idempotent |].
  intros Hchars Hstable. apply normalize_stable; [| done].
  eapply Forall_impl; [exact Hchars |].
  intros token Htoken. eapply Forall_impl; [exact Htoken |].
  intros c Hc. pose proof (cleaned_plain words) as Hp.
  rewrite Forall_forall in Hp. by apply Hp.
Qed.

End NormalizerProperties.

(** With a tokenizer that only divides at white space, as [split] does, the
    cleaning step is idempotent on every text. *)
Lemma normalize_split_idempotent (words : string) :
  normalize split (normalize split words) = normalize split words.
Proof.
  apply normalize_stable.
  - unfold split. apply split_from_chars; [constructor | apply cleaned_plain].
  - apply split_join_split.
Qed.

(** C1, on a run. *)
Lemma filtered_text_drops_row_witness :
  length (new_df one_word_episode) = 2%nat
  ∧ filtered_text split some_stop_words (new_df one_word_episode)
    = [join (split "goodbye world")].
Proof.
  apply (filtered_text_drops_row split some_stop_words).
  - compute_done.
  - compute_done.
Defined.

(** C5, with [split] as the tokenizer. *)
Lemma example_scenario_witness :
  NewDf.season_episode <$> new_df example_avatar = ["1-1"; "1-2"]
  ∧ filtered_text split some_stop_words (new_df example_avatar)
    = ["hello world"; "goodbye world"].
Proof.
  apply (example_scenario split some_stop_words).
  - reflexivity.
  - reflexivity.
  - compute_done.
  - compute_done.
Defined.

(** C6 as stated fails for a tokenizer that keeps white space: once the
    hyphen is gone, "Hello - world." has two spaces in a row, and every
    further cleaning adds one. *)
Lemma normalize_not_idempotent :
  normalize whitespace_tokens "Hello - world." = "hello   world"
  ∧ normalize whitespace_tokens "hello   world" = "hello    world"
  ∧ normalize whitespace_tokens (normalize whitespace_tokens "Hello - world.")
    ≠ normalize whitespace_tokens "Hello - world.".
Proof. split_and!; [reflexivity | reflexivity | vm_compute; discriminate]. Qed.

(** C6 as amended, with [split] as the tokenizer. *)
Lemma normalize_fixed_point_witness :
  normalize split (normalize split "Hello - world.")
  = normalize split "Hello - world.".
Proof.
  apply (normalize_fixed_point split "Hello - world.").
  - compute_done.
  - reflexivity.
Defined.

(** ** Scorer, merger and the whole run *)

Lemma load_name_s {A} (value : A) : load_name "s" value = raise (NameError "s").
Proof. reflexivity. Qed.

Section RunProperties.
Context {F V D : Type}.
Variable nlp : string → list string.
Variable stop_words : list string.
Variable polarity_scores : string → Polarity.scores F.
Variable s : Affect.analyzer V D.

(** The sentiment table holds, row by row, the scores as the analyzer
    returns them. *)
Lemma sentiment_data_lookup (filtered : list string) i :
  sentiment_data polarity_scores filtered !! i
  = sentiment_row polarity_scores i <$> filtered !! i.
Proof. unfold sentiment_data. apply list_lookup_imap. Qed.

Lemma length_sentiment_data (filtered : list string) :
  length (sentiment_data polarity_scores filtered) = length filtered.
Proof. unfold sentiment_data. apply length_imap. Qed.

Lemma other_row_fails txt : other_row s txt = raise (NameError "s").
Proof. reflexivity. Qed.

Lemma other_data_fails txt rest :
  other_data s (txt :: rest) = raise (NameError "s").
Proof. reflexivity. Qed.

Lemma run_with_text (fs : gmap string csv) (avatar : list Avatar.row) txt rest :
  filtered_text nlp stop_words (new_df avatar) = txt :: rest →
  (run nlp stop_words polarity_scores s fs avatar).2 = raise (NameError "s").
Proof.
  intros E. cbn [run snd]. rewrite E.
  cbn [first_text]. rewrite other_data_fails. reflexivity.
Qed.

Lemma length_merged_index (scores : list (SentimentData.row F))
    (other : list (OtherData.row V D)) :
  length (merged_index scores other)
  = match scores with [] => length other | _ => length scores end.
Proof. unfold merged_index. destruct scores; apply length_seq. Qed.

Lemma merged_index_lookup (scores : list (SentimentData.row F))
    (other : list (OtherData.row V D)) i j :
  merged_index scores other !! i = Some j → j = i.
Proof.
  unfold merged_index. destruct scores; by intros [? _]%lookup_seq.
Qed.

Lemma merger_returns (scores : list (SentimentData.row F))
    (other : list (OtherData.row V D)) (new_df : list NewDf.row) :
  other ≠ [] →
  merger scores other new_df
  = ok (merged_row scores other new_df <$> merged_index scores other).
Proof. unfold merger. by destruct other. Qed.

Lemma merged_lookup (scores : list (SentimentData.row F))
    (other : list (OtherData.row V D)) (new_df : list NewDf.row) i row :
  (merged_row scores other new_df <$> merged_index scores other) !! i = Some row →
  row = merged_row scores other new_df i
  ∧ (i < length (merged_index scores other))%nat.
Proof.
  rewrite list_lookup_fmap. intros Hrow.
  destruct (merged_index scores other !! i) as [j|] eqn:Hj; [| done].
  pose proof (lookup_lt_Some _ _ _ Hj) as Hlt.
  apply merged_index_lookup in Hj as ->. by injection Hrow as <-.
Qed.

(** C4: the merger returns a table in which row i has the polarity result
    of index i, the valence, arousal and description of index i, and the
    imdb_rating and book_num of aggregator row i; nothing but the index
    relates the three.  The table is as long as the polarity table, which
    has a row for every index of it; a polarity table made from an empty
    list brings no index, and the table is then as long as the affect
    table. *)
Theorem merger_by_position (scores : list (SentimentData.row F))
    (other : list (OtherData.row V D)) (new_df : list NewDf.row) :
  other ≠ [] →
  ∃ final, merger scores other new_df = ok final
    ∧ length final
      = match scores with [] => length other | _ => length scores end
    ∧ ∀ i row, final !! i = Some row →
        (scores ≠ [] → is_Some (scores !! i))
        ∧ Final.id row = SentimentData.id <$> scores !! i
        ∧ Final.negative_score row
          = SentimentData.negative_score <$> scores !! i
        ∧ Final.neutral_score row
          = SentimentData.neutral_score <$> scores !! i
        ∧ Final.positive_score row
          = SentimentData.positive_score <$> scores !! i
        ∧ Final.compound_score row
          = SentimentData.compound_score <$> scores !! i
        ∧ Final.character_words row
          = SentimentData.character_words <$> scores !! i
        ∧ Final.arousal_score row = OtherData.arousal <$> other !! i
        ∧ Final.valence_score row = OtherData.valence <$> other !! i
        ∧ Final.description row = OtherData.description <$> other !! i
        ∧ Final.imdb_rating row = NewDf.imdb_rating <$> new_df !! i
        ∧ Final.season row = NewDf.book_num <$> new_df !! i.
Proof.
  intros Hne. eexists. split; [by apply merger_returns |]. split.
  - rewrite length_fmap. apply length_merged_index.
  - intros i row [-> Hlt]%merged_lookup. split; [| by split_and!].
    intros Hscores. apply lookup_lt_is_Some_2.
    rewrite length_merged_index in Hlt. by destruct scores.
Qed.

(** C8 (as amended): a run leaves in new.df.csv the aggregator table, in
    place of whatever the name held; the header is an unnamed index
    column followed by book_num, chapter_num, imdb_rating,
    character_words, season-episode, and record i is the index i followed
    by the five cells of row i.  No other file is touched. *)
Theorem run_writes_csv (fs : gmap string csv) (avatar : list Avatar.row) :
  let fs' := (run nlp stop_words polarity_scores s fs avatar).1 in
  ∃ file, fs' !! "new.df.csv" = Some file
    ∧ header file = EmptyString :: columns
    ∧ length (records file) = length (new_df avatar)
    ∧ (∀ i r, new_df avatar !! i = Some r →
         records file !! i
         = Some [Int (Z.of_nat i); Int (NewDf.book_num r);
                 Int (NewDf.chapter_num r); Float (NewDf.imdb_rating r);
                 Str (NewDf.character_words r); Str (NewDf.season_episode r)])
    ∧ (∀ name, name ≠ "new.df.csv" → fs' !! name = fs !! name).
Proof.
  exists (to_csv (new_df avatar)). cbn [run fst]. unfold write_file.
  split_and!.
  - apply lookup_insert_eq.
  - done.
  - apply length_imap.
  - intros i r Hr. cbn [to_csv records]. rewrite list_lookup_imap, Hr. done.
  - intros name Hname. by apply lookup_insert_ne.
Qed.

(** C10: when at least one text comes out of the normalizer, the run ends
    in the loop of lines 87-97 with NameError for [s], and returns no
    table. *)
Theorem run_name_error (fs : gmap string csv) (avatar : list Avatar.row) :
  filtered_text nlp stop_words (new_df avatar) ≠ [] →
  (run nlp stop_words polarity_scores s fs avatar).2 = raise (NameError "s").
Proof.
  intros Hne.
  destruct (filtered_text nlp stop_words (new_df avatar)) as [|txt rest] eqn:E;
    [done |].
  by apply (run_with_text fs avatar txt rest).
Qed.

(** Without a cleaned text the run ends earlier, at line 59; so no run
    returns the final table. *)
Lemma run_no_text (fs : gmap string csv) (avatar : list Avatar.row) :
  filtered_text nlp stop_words (new_df avatar) = [] →
  (run nlp stop_words polarity_scores s fs avatar).2
  = raise (AttributeError "filtered_text").
Proof. intros Hnil. cbn [run snd]. by rewrite Hnil. Qed.

Lemma run_never_returns (fs : gmap string csv) (avatar : list Avatar.row) :
  ∃ e, (run nlp stop_words polarity_scores s fs avatar).2 = raise e.
Proof.
  destruct (filtered_text nlp stop_words (new_df avatar)) eqn:E.
  - eexists. by apply run_no_text.
  - eexists. by eapply run_with_text.
Qed.

End RunProperties.

(** C4, on the two episodes of the example. *)
Lemma merger_by_position_witness :
  ∃ final,
    merger (sentiment_data neutral_scores ["hello world"; "goodbye world"])
      [OtherData.Row 5%Q 4%Q "calm"; OtherData.Row 6%Q 3%Q "calm"]
      (new_df example_avatar) = ok final
    ∧ length final = 2%nat
    ∧ Final.id <$> final !! 1%nat = Some (Some 1%nat)
    ∧ Final.season <$> final !! 1%nat = Some (Some 1).
Proof.
  destruct (merger_by_position
              (sentiment_data neutral_scores ["hello world"; "goodbye world"])
              [OtherData.Row 5%Q 4%Q "calm"; OtherData.Row 6%Q 3%Q "calm"]
              (new_df example_avatar)) as (final & Hfinal & Hlen & Hrows).
  - discriminate.
  - exists final. split_and!; [done | done | |];
      (destruct (final !! 1%nat) as [row|] eqn:Hrow;
       [| apply lookup_ge_None in Hrow; simpl in Hlen; lia]);
      destruct (Hrows _ _ Hrow) as (_ & Hid & Hp); simpl; f_equal.
    + apply Hid.
    + apply Hp.
Defined.

(** C8 as stated fails: the file has six columns, the first unnamed. *)
Lemma csv_header_not_columns :
  header <$> (run split some_stop_words neutral_scores flat_affect ∅
                example_avatar).1 !! "new.df.csv"
  ≠ Some columns.
Proof. vm_compute. discriminate. Qed.

(** C10, on the example. *)
Lemma run_name_error_witness :
  (run split some_stop_words neutral_scores flat_affect ∅ example_avatar).2
  = raise (NameError "s").
Proof.
  apply run_name_error. vm_compute. discriminate.
Defined.

(** * Further properties of the script *)

(** ** Aggregator: order, keys and text of the output *)

Lemma key_le_trans : Transitive key_le.
Proof.
  intros [[b1 c1] q1] [[b2 c2] q2] [[b3 c3] q3]. unfold key_le.
  intros [?|[-> [?|[-> H12]]]] [?|[<- [?|[<- H23]]]]; try (left; lia);
    try (right; split; [done |]; left; lia).
  right. split; [done |]. right. split; [done |]. by eapply Qcle_trans.
Qed.

Lemma key_le_antisym : AntiSymm (=) key_le.
Proof.
  intros [[b1 c1] q1] [[b2 c2] q2]. unfold key_le.
  intros [?|[-> [?|[-> H12]]]] [?|[? [?|[? H21]]]]; try lia.
  by rewrite (Qcle_antisym _ _ H12 H21).
Qed.

Lemma row_key_new_df_row g : row_key (new_df_row g) = g.1.
Proof. by destruct g as [[[b c] q] w]. Qed.

Lemma row_keys_new_df avatar :
  row_key <$> new_df avatar = (groupby_sum avatar).*1.
Proof.
  unfold new_df. rewrite <- list_fmap_compose. apply list_fmap_ext.
  intros i g _. apply row_key_new_df_row.
Qed.

Lemma row_keys_Permutation avatar :
  row_key <$> new_df avatar ≡ₚ remove_dups (omap group_key avatar).
Proof.
  rewrite row_keys_new_df, groupby_sum_Permutation. apply group_sum_keys.
Qed.

Lemma row_keys_sorted avatar : StronglySorted key_le (row_key <$> new_df avatar).
Proof.
  rewrite row_keys_new_df.
  apply (@Sorted_StronglySorted _ key_le key_le_trans).
  apply (Sorted_fmap fst group_le key_le); [done | apply groupby_sum_sorted].
Qed.

(** X1: the rows of the aggregator output are in ascending order of
    (book_num, chapter_num, imdb_rating), compared column by column,
    whatever the order of the input rows. *)
Theorem new_df_sorted avatar : StronglySorted row_le (new_df avatar).
Proof.
  unfold new_df.
  apply (StronglySorted_fmap new_df_row group_le row_le).
  - intros g1 g2. unfold row_le, group_le. by rewrite !row_key_new_df_row.
  - apply (@Sorted_StronglySorted _ group_le); [| apply groupby_sum_sorted].
    intros g1 g2 g3. apply key_le_trans.
Qed.

Lemma row_keys_NoDup avatar : NoDup (row_key <$> new_df avatar).
Proof. rewrite row_keys_Permutation. apply NoDup_remove_dups. Qed.

(** X2: no two rows of the aggregator output have the same
    (book_num, chapter_num, imdb_rating). *)
Theorem new_df_keys_distinct avatar : NoDup (row_key <$> new_df avatar).
Proof. apply row_keys_NoDup. Qed.

(** X3: a key is in the aggregator output exactly when some input row
    with a rating has it. *)
Theorem new_df_key_iff avatar (k : key) :
  k ∈ row_key <$> new_df avatar ↔ ∃ r, r ∈ avatar ∧ group_key r = Some k.
Proof.
  rewrite row_keys_Permutation, elem_of_remove_dups, list_elem_of_omap. done.
Qed.

Lemma fold_group_step_unrated avatar groups :
  fold_left group_step
    (filter (λ r, is_Some (Avatar.imdb_rating r)) avatar) groups
  = fold_left group_step avatar groups.
Proof.
  revert groups. induction avatar as [|r rest IH]; intros groups; [done |].
  rewrite filter_cons. destruct (decide _) as [Hr|Hr]; cbn [fold_left].
  - apply IH.
  - rewrite IH. unfold group_step, group_key.
    destruct (Avatar.imdb_rating r); [| done]. by destruct Hr.
Qed.

(** X4: the rows without a rating have no effect on the aggregator
    output: leaving them out of the input gives the same table. *)
Theorem new_df_ignores_unrated avatar :
  new_df (filter (λ r, is_Some (Avatar.imdb_rating r)) avatar) = new_df avatar.
Proof.
  unfold new_df, groupby_sum, group_sum. by rewrite fold_group_step_unrated.
Qed.

(** X5: the keys of the output rows, in their order, do not depend on the
    order of the input rows. *)
Theorem new_df_keys_order_free avatar1 avatar2 :
  avatar1 ≡ₚ avatar2 →
  row_key <$> new_df avatar1 = row_key <$> new_df avatar2.
Proof.
  intros Hperm.
  apply (@StronglySorted_unique _ key_le key_le_antisym);
    [apply row_keys_sorted | apply row_keys_sorted |].
  apply NoDup_Permutation; [apply row_keys_NoDup .. |].
  intros k. rewrite !row_keys_Permutation, !elem_of_remove_dups.
  by rewrite Hperm.
Qed.

Lemma string_length_app (a b : string) :
  String.length (a ++ b) = (String.length a + String.length b)%nat.
Proof.
  induction a as [|x a IH]; [done |].
  rewrite string_app_cons. simpl. by rewrite IH.
Qed.

Lemma sum_list_with_fmap {A B} (f : B → nat) (g : A → B) (l : list A) :
  sum_list_with f (g <$> l) = sum_list_with (f ∘ g) l.
Proof. induction l as [|x l IH]; [done |]. csimpl. by rewrite IH. Qed.

Lemma group_chars_add k w (groups : list (key * string)) :
  total_length (add_to_group k w groups).*2
  = (total_length groups.*2 + String.length w)%nat.
Proof.
  unfold total_length.
  induction groups as [|[k' acc] rest IH]; csimpl; [lia |].
  destruct (decide (k = k')) as [->|Hne]; csimpl.
  - rewrite string_length_app. lia.
  - rewrite IH. lia.
Qed.

Lemma group_chars_fold avatar groups :
  total_length (fold_left group_step avatar groups).*2
  = (total_length groups.*2
     + total_length (Avatar.character_words
                     <$> filter (λ r, is_Some (Avatar.imdb_rating r)) avatar))%nat.
Proof.
  revert groups. induction avatar as [|r rest IH]; intros groups.
  - unfold total_length. simpl. lia.
  - cbn [fold_left]. rewrite IH, filter_cons. unfold group_step, group_key.
    destruct (Avatar.imdb_rating r) as [q|].
    + rewrite decide_True by done. rewrite group_chars_add.
      unfold total_length. csimpl. lia.
    + rewrite decide_False by (by intros [? ?]). done.
Qed.

Lemma character_words_new_df avatar :
  NewDf.character_words <$> new_df avatar = (groupby_sum avatar).*2.
Proof.
  unfold new_df. rewrite <- list_fmap_compose. apply list_fmap_ext.
  by intros i [[[b c] q] w] _.
Qed.

(** X6: the aggregator neither loses nor adds a character: the texts of
    the output rows have together as many characters as the dialogue of the
    input rows that have a rating. *)
Theorem new_df_keeps_all_text avatar :
  total_length (NewDf.character_words <$> new_df avatar)
  = total_length (Avatar.character_words
                  <$> filter (λ r, is_Some (Avatar.imdb_rating r)) avatar).
Proof.
  rewrite character_words_new_df.
  transitivity (total_length (group_sum avatar).*2).
  - unfold total_length. apply sum_list_with_Permutation_proper.
    by rewrite groupby_sum_Permutation.
  - unfold group_sum. rewrite group_chars_fold. unfold total_length. simpl. lia.
Qed.

Lemma length_remove_dups_le {A} `{EqDecision A} (l : list A) :
  (length (remove_dups l) ≤ length l)%nat.
Proof.
  induction l as [|x l IH]; [done |]. cbn [remove_dups].
  destruct (decide_rel _ _ _); simpl; lia.
Qed.

Lemma length_omap_le {A B} (f : A → option B) (l : list A) :
  (length (omap f l) ≤ length l)%nat.
Proof.
  induction l as [|x l IH]; [done |]. csimpl.
  destruct (f x); simpl; lia.
Qed.

(** X7: the output has at most one row per input row, and it is empty
    exactly when no input row has a rating (an empty input among them). *)
Theorem new_df_size avatar :
  (length (new_df avatar) ≤ length avatar)%nat
  ∧ (new_df avatar = [] ↔ Forall (λ r, Avatar.imdb_rating r = None) avatar).
Proof.
  split.
  - rewrite length_new_df, length_group_sum.
    etrans; [apply length_remove_dups_le |]. apply length_omap_le.
  - rewrite <- length_zero_iff_nil, length_new_df, length_group_sum.
    rewrite length_zero_iff_nil. split.
    + intros Hnil. apply Forall_forall. intros r Hr.
      destruct (Avatar.imdb_rating r) as [q|] eqn:Hq; [| done].
      assert ((Avatar.book_num r, Avatar.chapter_num r, q)
              ∈ remove_dups (omap group_key avatar)) as Hin.
      { apply elem_of_remove_dups, list_elem_of_omap. exists r.
        split; [done |]. unfold group_key. by rewrite Hq. }
      rewrite Hnil in Hin. by apply elem_of_nil in Hin.
    + intros Hall. induction Hall as [|r rest Hr _ IH]; [done |].
      csimpl. unfold group_key at 1. by rewrite Hr.
Qed.

Lemma season_episode_input avatar r q :
  r ∈ avatar → Avatar.imdb_rating r = Some q →
  ∃ e, e ∈ new_df avatar
    ∧ row_key e = (Avatar.book_num r, Avatar.chapter_num r, q)
    ∧ NewDf.season_episode e = avatar_season_episode r.
Proof.
  intros Hr Hq.
  assert ((Avatar.book_num r, Avatar.chapter_num r, q)
          ∈ (groupby_sum avatar).*1) as Hin.
  { rewrite groupby_sum_Permutation. apply group_sum_elem, list_elem_of_omap.
    exists r. split; [done |]. unfold group_key. by rewrite Hq. }
  apply list_elem_of_fmap in Hin as ([k w] & Hk & Hg). simpl in Hk. subst k.
  exists (new_df_row (Avatar.book_num r, Avatar.chapter_num r, q, w)).
  split_and!; [| done | done].
  unfold new_df. apply list_elem_of_fmap. eauto.
Qed.

(** X8: the identifier that line 20 gives an input row is the identifier
    of the output row of its group. *)
Theorem season_episode_of_input avatar r q :
  r ∈ avatar → Avatar.imdb_rating r = Some q →
  ∃ e, e ∈ new_df avatar
    ∧ row_key e = (Avatar.book_num r, Avatar.chapter_num r, q)
    ∧ NewDf.season_episode e = avatar_season_episode r.
Proof. apply season_episode_input. Qed.

(** X9: the identifier does not tell the rows of the output apart: two
    input rows of one book_num and chapter_num with different ratings give
    two output rows with the same identifier. *)
Theorem season_episode_not_unique avatar r1 r2 q1 q2 :
  r1 ∈ avatar → r2 ∈ avatar →
  Avatar.book_num r1 = Avatar.book_num r2 →
  Avatar.chapter_num r1 = Avatar.chapter_num r2 →
  Avatar.imdb_rating r1 = Some q1 → Avatar.imdb_rating r2 = Some q2 →
  q1 ≠ q2 →
  ∃ e1 e2, e1 ∈ new_df avatar ∧ e2 ∈ new_df avatar ∧ e1 ≠ e2
    ∧ NewDf.season_episode e1 = NewDf.season_episode e2.
Proof.
  intros Hr1 Hr2 Hb Hc Hq1 Hq2 Hne.
  destruct (season_episode_input avatar r1 q1 Hr1 Hq1) as (e1 & He1 & Hk1 & Hs1).
  destruct (season_episode_input avatar r2 q2 Hr2 Hq2) as (e2 & He2 & Hk2 & Hs2).
  exists e1, e2. split_and!; [done | done | |].
  - intros ->. rewrite Hk1 in Hk2. congruence.
  - rewrite Hs1, Hs2. unfold avatar_season_episode. by rewrite Hb, Hc.
Qed.

(** ** The identifier *)

Lemma string_of_uint_digits d :
  Forall (λ c, c ≠ "-"%char) (chars (NilEmpty.string_of_uint d)).
Proof. induction d; simpl; constructor; done. Qed.

Lemma nilzero_digits d : digits (NilZero.string_of_uint d).
Proof.
  split.
  - by destruct d.
  - destruct d; try apply string_of_uint_digits. by repeat constructor.
Qed.

(** [str n] is a run of digits with a hyphen before it when [n] is
    negative. *)
Lemma str_sign_digits n :
  ∃ d, digits d ∧ (str n = d ∨ str n = String "-" d).
Proof.
  unfold str. destruct (Z.to_int n) as [d|d]; simpl;
    exists (NilZero.string_of_uint d); (split; [apply nilzero_digits | auto]).
Qed.

Lemma digits_hyphen_inj (d1 d2 r1 r2 : string) :
  Forall (λ c, c ≠ "-"%char) (chars d1) →
  Forall (λ c, c ≠ "-"%char) (chars d2) →
  d1 ++ String "-" r1 = d2 ++ String "-" r2 → d1 = d2 ∧ r1 = r2.
Proof.
  revert d2. induction d1 as [|c1 d1 IH]; intros [|c2 d2] H1 H2 Heq.
  - by injection Heq as ->.
  - rewrite string_app_cons in Heq. injection Heq as <- _.
    apply Forall_cons in H2 as [? _]. done.
  - rewrite string_app_cons in Heq. injection Heq as -> _.
    apply Forall_cons in H1 as [? _]. done.
  - rewrite !string_app_cons in Heq. injection Heq as -> Heq.
    apply Forall_cons in H1 as [_ H1]. apply Forall_cons in H2 as [_ H2].
    destruct (IH d2 H1 H2 Heq) as [-> ->]. done.
Qed.

Lemma str_inj n m : str n = str m → n = m.
Proof.
  intros Heq. pose proof (str_decimal n) as Hn. rewrite Heq, str_decimal in Hn.
  by injection Hn.
Qed.

Lemma identifier_inj b1 c1 b2 c2 :
  str b1 ++ "-" ++ str c1 = str b2 ++ "-" ++ str c2 → b1 = b2 ∧ c1 = c2.
Proof.
  intros Heq.
  destruct (str_sign_digits b1) as (d1 & [Hn1 Hd1] & Hs1).
  destruct (str_sign_digits b2) as (d2 & [Hn2 Hd2] & Hs2).
  change ("-" ++ ?x) with (String "-"%char x) in Heq.
  assert (str b1 = str b2 ∧ str c1 = str c2) as [Hb Hc].
  { destruct Hs1 as [Hs1|Hs1], Hs2 as [Hs2|Hs2]; rewrite Hs1, Hs2 in *.
    - destruct (digits_hyphen_inj _ _ _ _ Hd1 Hd2 Heq) as [-> ?]. done.
    - destruct d1 as [|c d1]; [done |]. rewrite !string_app_cons in Heq.
      injection Heq as -> _. apply Forall_cons in Hd1 as [? _]. done.
    - destruct d2 as [|c d2]; [done |]. rewrite !string_app_cons in Heq.
      injection Heq as <- _. apply Forall_cons in Hd2 as [? _]. done.
    - rewrite !string_app_cons in Heq. injection Heq as Heq.
      destruct (digits_hyphen_inj _ _ _ _ Hd1 Hd2 Heq) as [-> ?]. done. }
  split; by apply str_inj.
Qed.

(** X10: the identifier determines the book_num and the chapter_num: two
    rows of the output with the same identifier have the same two numbers,
    negative ones included. *)
Theorem season_episode_determines avatar (e1 e2 : NewDf.row) :
  e1 ∈ new_df avatar → e2 ∈ new_df avatar →
  NewDf.season_episode e1 = NewDf.season_episode e2 →
  NewDf.book_num e1 = NewDf.book_num e2
  ∧ NewDf.chapter_num e1 = NewDf.chapter_num e2.
Proof.
  intros (g1 & _ & ->)%new_df_elem (g2 & _ & ->)%new_df_elem.
  destruct g1 as [[[b1 c1] q1] w1], g2 as [[[b2 c2] q2] w2]. simpl.
  apply identifier_inj.
Qed.

(** X11: [str] is the decimal rendering: read back as a decimal numeral it
    gives the number, and two numbers have the same rendering only if they
    are equal. *)
Theorem str_round_trip n m :
  Z.of_int <$> NilZero.int_of_string (str n) = Some n
  ∧ (str n = str m ↔ n = m).
Proof.
  split; [apply str_decimal |]. split; [apply str_inj | by intros ->].
Qed.

(** ** Cleaning, splitting and the stop-word test *)

Lemma cleaned_app (a b : string) : cleaned (a ++ b) = cleaned a ++ cleaned b.
Proof.
  unfold cleaned. induction a as [|c a IH]; [done |].
  rewrite string_app_cons. cbn [lower re_sub_punct]. rewrite IH.
  by destruct (isword (lower_char c) || isspace (lower_char c)).
Qed.

Lemma cleaned_length (words : string) :
  (String.length (cleaned words) ≤ String.length words)%nat.
Proof.
  unfold cleaned. induction words as [|c words IH]; [done |].
  cbn [lower re_sub_punct].
  destruct (isword (lower_char c) || isspace (lower_char c)); simpl; lia.
Qed.

(** X12: for a text of characters below U+0100 (the texts of this model),
    lines 41-42 leave only word characters and white space, none of them
    upper case, and a text that is not longer than before. *)
Theorem cleaned_text_plain (words : string) :
  Forall (λ c, (isword c || isspace c) && negb (isupper c) = true)
         (chars (cleaned words))
  ∧ (String.length (cleaned words) ≤ String.length words)%nat.
Proof. split; [apply cleaned_plain | apply cleaned_length]. Qed.

(** X13: for texts of characters below U+0100 (the texts of this model),
    where [lower] works character by character, cleaning goes through
    concatenation: the cleaned text of an episode is its cleaned lines of
    dialogue put end to end. *)
Theorem cleaned_glue (xs : list string) :
  cleaned (glue xs) = glue (cleaned <$> xs).
Proof.
  induction xs as [|x xs IH]; [done |].
  change (glue (x :: xs)) with (x ++ glue xs).
  rewrite cleaned_app, IH. done.
Qed.

Lemma split_at_no_sep sep piece s :
  sep ∉ chars s → split_at sep piece s = [piece ++ s].
Proof.
  revert piece. induction s as [|c s IH]; intros piece Hs.
  - by rewrite string_app_nil_r.
  - cbn [split_at]. rewrite decide_False.
    + rewrite IH, string_app_assoc; [done |].
      intros Hin. apply Hs. by right.
    + intros ->. apply Hs. left.
Qed.

Lemma split_at_not_nil sep piece s : split_at sep piece s ≠ [].
Proof.
  revert piece. induction s as [|c s IH]; intros piece; cbn [split_at];
    [done |]. by destruct (decide _).
Qed.

Lemma join_with_cons sep x (xs : list string) :
  xs ≠ [] → join_with sep (x :: xs) = x ++ String sep (join_with sep xs).
Proof. by destruct xs. Qed.

Lemma join_with_split_at sep piece s :
  join_with sep (split_at sep piece s) = piece ++ s.
Proof.
  revert piece. induction s as [|c s IH]; intros piece; cbn [split_at].
  - by rewrite string_app_nil_r.
  - destruct (decide (c = sep)) as [->|Hne].
    + rewrite join_with_cons by apply split_at_not_nil. by rewrite IH.
    + by rewrite IH, string_app_assoc.
Qed.

(** X14: joining the pieces of [txt.split('.')] with full stops gives the
    text back. *)
Theorem sentences_round_trip (txt : string) :
  join_with "."%char (sentences txt) = txt.
Proof. apply join_with_split_at. Qed.

(** X15: the terms of [txt.split()] are not empty and have no white space
    in them, and they are the words of the text: a list of such words,
    joined by single spaces, splits into these words again. *)
Theorem split_terms (txt : string) (xs : list string) :
  Forall is_word (split txt)
  ∧ (Forall is_word xs → split (join xs) = xs).
Proof. split; [apply split_from_words; constructor | apply split_join]. Qed.

Section MoreNormalizerProperties.
Variable nlp : string → list string.
Variable stop_words : list string.

(** X16: the cleaned texts are as many as the aggregator rows exactly when
    no row, once cleaned, is an entry of the stop-word list. *)
Theorem filtered_text_aligned_iff (rows : list NewDf.row) :
  length (filtered_text nlp stop_words rows) = length rows
  ↔ Forall (λ r, cleaned (NewDf.character_words r) ∉ stop_words) rows.
Proof.
  split.
  - intros Hlen. apply Forall_forall. intros r Hr Hin.
    assert (Exists (λ r, cleaned (NewDf.character_words r) ∈ stop_words) rows)
      as Hex by (apply Exists_exists; eauto).
    apply (filtered_text_dropped nlp) in Hex. lia.
  - intros Hall. rewrite (filtered_text_aligned nlp _ _ Hall).
    apply length_fmap.
Qed.

(** X17: a stop-word list whose entries have no white space in them drops
    no text of several words: if every cleaned text has a white-space
    character, the cleaned texts are those of all the rows, in order. *)
Theorem filtered_text_keeps_phrases (rows : list NewDf.row) :
  Forall (λ w, Forall (λ c, isspace c = false) (chars w)) stop_words →
  Forall (λ r, Exists (λ c, isspace c = true)
                 (chars (cleaned (NewDf.character_words r)))) rows →
  filtered_text nlp stop_words rows
  = (λ r, normalize nlp (NewDf.character_words r)) <$> rows.
Proof.
  intros Hstop Hrows. apply filtered_text_aligned.
  eapply Forall_impl; [exact Hrows |]. intros r Hex Hin.
  rewrite Forall_forall in Hstop. specialize (Hstop _ Hin).
  apply Exists_exists in Hex as (c & Hc & Hsp).
  rewrite Forall_forall in Hstop. specialize (Hstop _ Hc). congruence.
Qed.

(** X18: line 60 finds one sentence only: the full stops are gone from a
    cleaned text, so when the tokens have no other characters than lines
    41-42 leave, [txt.split('.')] is the text itself. *)
Theorem sentences_of_cleaned (words : string) :
  Forall (λ token, Forall (λ c, plain_char c = true) (chars token))
         (nlp (cleaned words)) →
  sentences (normalize nlp words) = [normalize nlp words].
Proof.
  intros Hplain. unfold sentences. rewrite split_at_no_sep; [done |].
  intros Hin. apply join_plain in Hplain.
  rewrite Forall_forall in Hplain. by specialize (Hplain _ Hin).
Qed.

End MoreNormalizerProperties.

(** ** Scorer, merger and the run *)

Lemma new_df_nil avatar :
  Forall (λ r, Avatar.imdb_rating r = None) avatar → new_df avatar = [].
Proof.
  intros Hall. apply length_zero_iff_nil.
  rewrite length_new_df, length_group_sum. apply length_zero_iff_nil.
  induction Hall as [|r rest Hr _ IH]; [done |].
  csimpl. unfold group_key at 1. by rewrite Hr.
Qed.

Section MoreRunProperties.
Context {F V D : Type}.
Variable nlp : string → list string.
Variable stop_words : list string.
Variable polarity_scores : string → Polarity.scores F.
Variable s : Affect.analyzer V D.

(** X19: when no row is dropped by the stop-word test, the sentiment table
    lines up with the aggregator output: its row i has the id i, the scores
    of the cleaned text of aggregator row i, and that text. *)
Theorem sentiment_data_aligned (rows : list NewDf.row) i e :
  Forall (λ r, cleaned (NewDf.character_words r) ∉ stop_words) rows →
  rows !! i = Some e →
  sentiment_data polarity_scores (filtered_text nlp stop_words rows) !! i
  = Some (sentiment_row polarity_scores i
            (normalize nlp (NewDf.character_words e))).
Proof.
  intros Hall He. rewrite sentiment_data_lookup.
  rewrite (filtered_text_aligned nlp _ _ Hall), list_lookup_fmap, He. done.
Qed.

(** X20: when the polarity table is not empty, the affect table is as
    long and the aggregator output is not shorter, the merger succeeds and
    leaves no cell of the final table empty. *)
Theorem merger_fills_columns (scores : list (SentimentData.row F))
    (other : list (OtherData.row V D)) (new_df : list NewDf.row) :
  scores ≠ [] → length other = length scores →
  (length scores ≤ length new_df)%nat →
  ∃ final, merger scores other new_df = ok final
    ∧ Forall (λ row, is_Some (Final.id row)
                     ∧ is_Some (Final.negative_score row)
                     ∧ is_Some (Final.neutral_score row)
                     ∧ is_Some (Final.positive_score row)
                     ∧ is_Some (Final.compound_score row)
                     ∧ is_Some (Final.character_words row)
                     ∧ is_Some (Final.arousal_score row)
                     ∧ is_Some (Final.valence_score row)
                     ∧ is_Some (Final.description row)
                     ∧ is_Some (Final.imdb_rating row)
                     ∧ is_Some (Final.season row)) final.
Proof.
  intros Hscores Hother Hdf.
  assert (other ≠ []) as Hne.
  { intros ->. destruct scores; [done | discriminate]. }
  eexists. split; [by apply merger_returns |].
  apply Forall_lookup. intros i row [-> Hlt]%merged_lookup.
  rewrite length_merged_index in Hlt.
  assert (i < length scores)%nat as Hi by (by destruct scores).
  destruct (lookup_lt_is_Some_2 scores i) as [p Hp]; [lia |].
  destruct (lookup_lt_is_Some_2 other i) as [o Ho]; [lia |].
  destruct (lookup_lt_is_Some_2 new_df i) as [e He]; [lia |].
  simpl. rewrite Hp, Ho, He. by split_and!.
Qed.

(** X21: no run returns the final table.  It ends at line 59 with
    AttributeError when the normalizer has dropped every text, and at
    line 90 with NameError otherwise. *)
Theorem run_always_fails (fs : gmap string csv) (avatar : list Avatar.row) :
  (filtered_text nlp stop_words (new_df avatar) = []
   ∧ (run nlp stop_words polarity_scores s fs avatar).2
     = raise (AttributeError "filtered_text"))
  ∨ (filtered_text nlp stop_words (new_df avatar) ≠ []
     ∧ (run nlp stop_words polarity_scores s fs avatar).2
       = raise (NameError "s")).
Proof.
  destruct (filtered_text nlp stop_words (new_df avatar)) as [|txt rest] eqn:E.
  - left. split; [done |]. by apply run_no_text.
  - right. split; [done |]. by eapply run_with_text.
Qed.

(** X22: on a table without a rated row, an empty table among them, the
    run writes a CSV without records and ends with AttributeError. *)
Theorem run_without_ratings (fs : gmap string csv) (avatar : list Avatar.row) :
  Forall (λ r, Avatar.imdb_rating r = None) avatar →
  (run nlp stop_words polarity_scores s fs avatar).1 !! "new.df.csv"
  = Some (Csv (EmptyString :: columns) [])
  ∧ (run nlp stop_words polarity_scores s fs avatar).2
    = raise (AttributeError "filtered_text").
Proof.
  intros Hall. pose proof (new_df_nil _ Hall) as Hnil. split.
  - cbn [run fst]. unfold write_file. rewrite lookup_insert_eq, Hnil. done.
  - apply run_no_text. by rewrite Hnil.
Qed.

End MoreRunProperties.

(** ** The properties above, on examples *)

Lemma new_df_keys_order_free_witness :
  row_key <$> new_df example_avatar = row_key <$> new_df example_avatar_swapped.
Proof.
  apply new_df_keys_order_free. unfold example_avatar, example_avatar_swapped.
  apply perm_swap.
Defined.

Lemma season_episode_of_input_witness :
  ∃ e, e ∈ new_df example_avatar
    ∧ row_key e = (1, 2, Q2Qc (9 # 1))
    ∧ NewDf.season_episode e = "1-2".
Proof.
  apply (season_episode_of_input example_avatar
           (Avatar.Row 1 2 (Some (Q2Qc (9 # 1))) "Goodbye world.")).
  - unfold example_avatar. right. left.
  - reflexivity.
Defined.

Lemma season_episode_not_unique_witness :
  ∃ e1 e2, e1 ∈ new_df rerated_episode ∧ e2 ∈ new_df rerated_episode
    ∧ e1 ≠ e2 ∧ NewDf.season_episode e1 = NewDf.season_episode e2.
Proof.
  apply (season_episode_not_unique rerated_episode
           (Avatar.Row 1 1 (Some (Q2Qc (85 # 10))) "Hello world.")
           (Avatar.Row 1 1 (Some (Q2Qc (9 # 1))) "Goodbye world.")
           (Q2Qc (85 # 10)) (Q2Qc (9 # 1))).
  - unfold rerated_episode. left.
  - unfold rerated_episode. right. left.
  - reflexivity.
  - reflexivity.
  - reflexivity.
  - reflexivity.
  - intros H. apply (f_equal (λ q : Qc, Qnum q)) in H. vm_compute in H.
    discriminate.
Defined.

Lemma season_episode_determines_witness :
  NewDf.book_num (NewDf.Row 1 1 (Q2Qc (85 # 10)) "Hello world." "1-1")
  = NewDf.book_num (NewDf.Row 1 1 (Q2Qc (9 # 1)) "Goodbye world." "1-1")
  ∧ NewDf.chapter_num (NewDf.Row 1 1 (Q2Qc (85 # 10)) "Hello world." "1-1")
    = NewDf.chapter_num (NewDf.Row 1 1 (Q2Qc (9 # 1)) "Goodbye world." "1-1").
Proof.
  apply (season_episode_determines rerated_episode).
  - left.
  - right. left.
  - reflexivity.
Defined.

Lemma split_terms_witness :
  Forall is_word (split "the  avatar returns")
  ∧ split (join ["the"; "avatar"; "returns"]) = ["the"; "avatar"; "returns"].
Proof.
  destruct (split_terms "the  avatar returns" ["the"; "avatar"; "returns"])
    as [Hwords Hjoin].
  split; [exact Hwords |]. apply Hjoin.
  repeat constructor; discriminate.
Defined.

Lemma filtered_text_keeps_phrases_witness :
  filtered_text split some_stop_words (new_df example_avatar)
  = (λ r, normalize split (NewDf.character_words r)) <$> new_df example_avatar.
Proof.
  apply filtered_text_keeps_phrases.
  - compute_done.
  - compute_done.
Defined.

Lemma sentences_of_cleaned_witness :
  sentences (normalize split "Hello. Goodbye.")
  = [normalize split "Hello. Goodbye."].
Proof. apply sentences_of_cleaned. compute_done. Defined.

Lemma sentiment_data_aligned_witness :
  sentiment_data neutral_scores
    (filtered_text split some_stop_words (new_df example_avatar)) !! 1%nat
  = Some (sentiment_row neutral_scores 1 (normalize split "Goodbye world.")).
Proof.
  apply (sentiment_data_aligned split some_stop_words neutral_scores
           (new_df example_avatar) 1
           (NewDf.Row 1 2 (Q2Qc (9 # 1)) "Goodbye world." "1-2")).
  - compute_done.
  - reflexivity.
Defined.

Lemma merger_fills_columns_witness :
  ∃ final,
    merger (sentiment_data neutral_scores ["hello world"; "goodbye world"])
      [OtherData.Row 5%Q 4%Q "calm"; OtherData.Row 6%Q 3%Q "calm"]
      (new_df example_avatar) = ok final
    ∧ Forall (λ row, is_Some (Final.id row)
                     ∧ is_Some (Final.negative_score row)
                     ∧ is_Some (Final.neutral_score row)
                     ∧ is_Some (Final.positive_score row)
                     ∧ is_Some (Final.compound_score row)
                     ∧ is_Some (Final.character_words row)
                     ∧ is_Some (Final.arousal_score row)
                     ∧ is_Some (Final.valence_score row)
                     ∧ is_Some (Final.description row)
                     ∧ is_Some (Final.imdb_rating row)
                     ∧ is_Some (Final.season row)) final.
Proof.
  apply merger_fills_columns.
  - discriminate.
  - reflexivity.
  - vm_compute. lia.
Defined.

Lemma run_without_ratings_witness :
  (run split some_stop_words neutral_scores flat_affect ∅ unrated_episode).1
    !! "new.df.csv" = Some (Csv (EmptyString :: columns) [])
  ∧ (run split some_stop_words neutral_scores flat_affect ∅ unrated_episode).2
    = raise (AttributeError "filtered_text").
Proof.
  apply run_without_ratings. unfold unrated_episode. repeat constructor.
Defined.
